(** * The catalog filter engine of the Miden ecosystem page

    A shallow embedding of the logic of [src/app/page.tsx]: the tag
    vocabulary ([getAllUniqueTags]), the two predicates evaluated inside the
    [filteredProjects] memo ([matchesSearch], [matchesTags]), and the event
    handlers that change the two pieces of component state ([searchTerm],
    [selectedTags]).

    JavaScript values are modelled as follows.
    - A [string] is the sequence of its code units ([Stdlib]'s [string]).
    - An array is a [list], in index order.
    - A [Set<string>] is the list of its elements in insertion order; every
      set the page builds has no repeated element, and [Array.from] reads the
      list back.
    - [String.prototype.toLowerCase] is a member of the class [CaseFold]:
      the theorems hold for every lower-casing function that maps the empty
      string to itself.  [toLowerCase_ascii] is the instance that agrees with
      JavaScript on strings of ASCII code units; concrete evaluations use it.
    - React state is a record; a handler enqueues updates ([setX(value)] or
      [setX(prev => ...)]) and the queue is applied before the next render.
    - The returned markup is a [View]: the tag buttons, the two clear
      buttons and the results area, with their React keys and the conditions
      under which each is rendered. *)

From Stdlib Require Import Ascii NArith.
From stdpp Require Import base decidable list sorting strings gmap.

(** ** Strings *)

Module JSString.

(** [s.startsWith(t)]: the code units of [t] are the first ones of [s]. *)
Fixpoint startsWith (s t : string) {struct t} : bool :=
  match t with
  | EmptyString => true
  | String c t' =>
      match s with
      | EmptyString => false
      | String d s' => bool_decide (d = c) && startsWith s' t'
      end
  end.

(** [s.includes(t)]: [t] occurs in [s] at some index (the empty string occurs
    at index 0 of every string). *)
Fixpoint includes (s t : string) : bool :=
  startsWith s t ||
  match s with
  | EmptyString => false
  | String _ s' => includes s' t
  end.

(** [t] is a substring of [s]. *)
Definition isSubstringOf (t s : string) : Prop :=
  ∃ pre post, s = pre +:+ t +:+ post.

(** Lower-casing of one ASCII code unit: ['A'..'Z'] (65..90) move to
    ['a'..'z'], every other code unit stays. *)
Definition toLowerCase_unit (c : ascii) : ascii :=
  let n := N_of_ascii c in
  if ((65 <=? n) && (n <=? 90))%N then ascii_of_N (n + 32) else c.

Fixpoint toLowerCase_ascii (s : string) : string :=
  match s with
  | EmptyString => EmptyString
  | String c s' => String (toLowerCase_unit c) (toLowerCase_ascii s')
  end.

End JSString.

(** What the development uses of [String.prototype.toLowerCase]: it is a
    function on strings, and the empty string has no code unit to change. *)
Class CaseFold := {
  toLowerCase : string → string;
  toLowerCase_empty : toLowerCase "" = "";
}.

#[export] Instance ascii_fold : CaseFold := {|
  toLowerCase := JSString.toLowerCase_ascii;
  toLowerCase_empty := eq_refl;
|}.

(** ** Arrays *)

Module JSArray.

Section Generic.
Context {A : Type}.

(** [arr.some(f)] *)
Fixpoint some (f : A → bool) (arr : list A) : bool :=
  match arr with
  | [] => false
  | x :: rest => if f x then true else some f rest
  end.

(** [arr.every(f)] *)
Fixpoint every (f : A → bool) (arr : list A) : bool :=
  match arr with
  | [] => true
  | x :: rest => if f x then every f rest else false
  end.

(** [arr.filter(f)] *)
Fixpoint filter (f : A → bool) (arr : list A) : list A :=
  match arr with
  | [] => []
  | x :: rest => if f x then x :: filter f rest else filter f rest
  end.

End Generic.

(** [arr.sort()] on an array of strings, with no comparator: the elements are
    ordered by comparing their code units ([String.le] is [String.leb], the
    lexicographic order on code units in which a proper prefix comes first). *)
Definition sort (arr : list string) : list string :=
  merge_sort String.le arr.

End JSArray.

(** ** Sets of strings *)

Module JSSet.

(** The elements, in insertion order. *)
Definition t : Type := list string.

(** [new Set()] *)
Definition empty : t := [].

(** [set.has(x)] *)
Definition has (s : t) (x : string) : bool := bool_decide (x ∈ s).

(** [set.add(x)]: a new element goes last, a present one changes nothing. *)
Definition add (s : t) (x : string) : t :=
  if has s x then s else s ++ [x].

(** [set.delete(x)] *)
Fixpoint delete (s : t) (x : string) : t :=
  match s with
  | [] => []
  | y :: rest => if bool_decide (y = x) then delete rest x else y :: delete rest x
  end.

(** [new Set(iterable)]: the elements are added one by one. *)
Definition from (iterable : list string) : t := foldl add empty iterable.

(** [Array.from(set)] *)
Definition toArray (s : t) : list string := s.

(** [set.size] *)
Definition size (s : t) : nat := length s.

(** The representation invariant: no element is stored twice. *)
Definition wf (s : t) : Prop := NoDup s.

(** The mathematical set a [Set] object stands for. *)
Definition members (s : t) : gset string := list_to_set s.

End JSSet.

(** ** The data model *)

Record Project := {
  id : N;
  name : string;
  description : string;
  link : string;
  imageUrl : string;
  tags : list string;
}.

(** The one entry of [allProjects]. *)
Definition midenNameService : Project :=
  {| id := 1;
     name := "Miden Name Service";
     description := "A decentralized naming system for the Miden ecosystem.";
     link := "https://miden-name-service-p55kix6fq-paulhenryks-projects.vercel.app/";
     imageUrl := "miden_name_service.png";
     tags := ["Naming"; "Utility"; "Infrastructure"] |}.

Definition allProjects : list Project := [midenNameService].

(** ** The tag vocabulary *)

Definition getAllUniqueTags (projects : list Project) : list string :=
  let tagSet :=
    foldl (λ tagSet project, foldl JSSet.add tagSet (tags project))
          JSSet.empty projects in
  JSArray.sort (JSSet.toArray tagSet).

(** ** The predicates and the visible set *)

Section Filter.
Context {fold : CaseFold}.

(** [matchesSearch] of the filter callback; [term] is the lower-cased search
    term computed once outside the callback. *)
Definition matchesSearch (term : string) (project : Project) : bool :=
  bool_decide (term = "") ||
  JSString.includes (toLowerCase (name project)) term ||
  JSString.includes (toLowerCase (description project)) term ||
  JSArray.some (λ tag, JSString.includes (toLowerCase tag) term) (tags project).

(** [matchesTags] of the filter callback. *)
Definition matchesTags (activeTags : list string) (project : Project) : bool :=
  bool_decide (length activeTags = 0) ||
  JSArray.every
    (λ selectedTag,
       JSArray.some
         (λ projectTag,
            bool_decide (toLowerCase projectTag = toLowerCase selectedTag))
         (tags project))
    activeTags.

(** The body of the [filteredProjects] memo.  The component closes over the
    module constant [allProjects]; here the catalog is an argument. *)
Definition filteredProjects
    (catalog : list Project) (searchTerm : string) (selectedTags : JSSet.t)
    : list Project :=
  let term := toLowerCase searchTerm in
  let activeTags := JSSet.toArray selectedTags in
  JSArray.filter
    (λ project, matchesSearch term project && matchesTags activeTags project)
    catalog.

(** *** The predicates as the specification words them *)

(** The lower-cased term occurs in the lower-cased name, or description, or
    one of the tags. *)
Definition SearchHit (project : Project) (searchTerm : string) : Prop :=
  let term := toLowerCase searchTerm in
  JSString.isSubstringOf term (toLowerCase (name project)) ∨
  JSString.isSubstringOf term (toLowerCase (description project)) ∨
  ∃ tag, tag ∈ tags project ∧ JSString.isSubstringOf term (toLowerCase tag).

(** The empty term matches every project; any other term must hit. *)
Definition SearchPredicate (project : Project) (searchTerm : string) : Prop :=
  searchTerm = "" ∨ SearchHit project searchTerm.

(** The project carries [selectedTag], up to case. *)
Definition CarriesTag (project : Project) (selectedTag : string) : Prop :=
  ∃ projectTag, projectTag ∈ tags project ∧
                toLowerCase projectTag = toLowerCase selectedTag.

(** The project carries every selected tag. *)
Definition CarriesAll (project : Project) (selectedTags : JSSet.t) : Prop :=
  ∀ selectedTag, selectedTag ∈ selectedTags → CarriesTag project selectedTag.

(** The empty selection matches every project; any other selection must be
    carried in full. *)
Definition TagPredicate (project : Project) (selectedTags : JSSet.t) : Prop :=
  JSSet.size selectedTags = 0 ∨ CarriesAll project selectedTags.

End Filter.

(** ** Component state and event handlers *)

Record FilterState := {
  searchTerm : string;
  selectedTags : JSSet.t;
}.

(** [useState('')] and [useState(new Set())]. *)
Definition initialState : FilterState :=
  {| searchTerm := ""; selectedTags := JSSet.empty |}.

(** The argument of a state setter: a value, or a function of the previous
    state. *)
Inductive SetStateAction (A : Type) : Type :=
| Value (a : A)
| Updater (f : A → A).
Arguments Value {A} a.
Arguments Updater {A} f.

Definition runAction {A : Type} (action : SetStateAction A) (prev : A) : A :=
  match action with
  | Value a => a
  | Updater f => f prev
  end.

(** One call of a state setter. *)
Inductive StateUpdate : Type :=
| setSearchTerm (action : SetStateAction string)
| setSelectedTags (action : SetStateAction JSSet.t).

Definition applyUpdate (st : FilterState) (u : StateUpdate) : FilterState :=
  match u with
  | setSearchTerm a =>
      {| searchTerm := runAction a (searchTerm st);
         selectedTags := selectedTags st |}
  | setSelectedTags a =>
      {| searchTerm := searchTerm st;
         selectedTags := runAction a (selectedTags st) |}
  end.

(** The updates one handler enqueues are applied in call order, and the
    component renders once with the result. *)
Definition flush (st : FilterState) (queue : list StateUpdate) : FilterState :=
  foldl applyUpdate st queue.

(** The function [handleTagClick] passes to [setSelectedTags]. *)
Definition handleTagClick_updater (tag : string) (prevSelectedTags : JSSet.t)
    : JSSet.t :=
  let newSelectedTags := JSSet.from prevSelectedTags in
  if JSSet.has newSelectedTags tag
  then JSSet.delete newSelectedTags tag
  else JSSet.add newSelectedTags tag.

Definition handleSearchChange (value : string) : list StateUpdate :=
  [setSearchTerm (Value value)].

Definition handleTagClick (tag : string) : list StateUpdate :=
  [setSelectedTags (Updater (handleTagClick_updater tag))].

(** [onClick] of the "Clear Filters" button. *)
Definition clearFilters_onClick : list StateUpdate :=
  [setSelectedTags (Value JSSet.empty)].

(** [onClick] of the "Clear Search & Filters" button. *)
Definition clearSearchAndFilters_onClick : list StateUpdate :=
  [setSelectedTags (Value JSSet.empty); setSearchTerm (Value "")].

(** The events the page reacts to. *)
Inductive Event : Type :=
| SearchChanged (value : string)
| TagClicked (tag : string)
| ClearFiltersClicked
| ClearSearchAndFiltersClicked.

Definition handler (e : Event) : list StateUpdate :=
  match e with
  | SearchChanged value => handleSearchChange value
  | TagClicked tag => handleTagClick tag
  | ClearFiltersClicked => clearFilters_onClick
  | ClearSearchAndFiltersClicked => clearSearchAndFilters_onClick
  end.

Definition step (st : FilterState) (e : Event) : FilterState :=
  flush st (handler e).

Definition run (st : FilterState) (es : list Event) : FilterState :=
  foldl step st es.

(** What a render shows for a state. *)
Definition visibleSet {fold : CaseFold} (catalog : list Project) (st : FilterState)
    : list Project :=
  filteredProjects catalog (searchTerm st) (selectedTags st).

(** ** What the component renders

    The markup of [MidenEcosystemPage] is kept up to its structure: which
    elements are rendered, under which React key, and which handler each one
    calls.  Class names and texts are left out. *)

(** [searchTerm] used as a condition: a string is truthy unless it is
    empty. *)
Definition truthy (s : string) : bool := negb (bool_decide (s = "")).

(** A tag button: [key={tag}], drawn as selected when
    [selectedTags.has(tag)], and [onClick] calls [handleTagClick(tag)]. *)
Record Chip := {
  chipTag : string;
  chipSelected : bool;
}.

(** A project card: [key={project.id}]; the row of tag labels (each with
    [key={tag}]) is rendered only under
    [project.tags && project.tags.length > 0]. *)
Record Card := {
  cardKey : N;
  cardProject : Project;
  cardTags : option (list string);
}.

(** The two branches of [filteredProjects.length > 0 ? ... : ...]; the second
    one carries whether the "Clear Search & Filters" button is rendered. *)
Inductive Results : Type :=
| Grid (cards : list Card)
| NoProjectsFound (clearSearchAndFilters : bool).

Record View := {
  chips : list Chip;
  clearFilters : bool;
  results : Results;
}.

Definition renderCard (project : Project) : Card :=
  {| cardKey := id project;
     cardProject := project;
     cardTags :=
       if bool_decide (0 < length (tags project))
       then Some (tags project) else None |}.

(** The element tree the component returns for a state.  [uniqueTags] is the
    memo of [getAllUniqueTags(allProjects)]; as for [filteredProjects] the
    catalog is an argument. *)
Definition MidenEcosystemPage {fold : CaseFold}
    (catalog : list Project) (st : FilterState) : View :=
  let uniqueTags := getAllUniqueTags catalog in
  let filteredProjects :=
    filteredProjects catalog (searchTerm st) (selectedTags st) in
  {| chips :=
       (λ tag, {| chipTag := tag;
                  chipSelected := JSSet.has (selectedTags st) tag |})
         <$> uniqueTags;
     clearFilters := bool_decide (0 < JSSet.size (selectedTags st));
     results :=
       if bool_decide (0 < length filteredProjects)
       then Grid (renderCard <$> filteredProjects)
       else NoProjectsFound
              (truthy (searchTerm st) ||
               bool_decide (0 < JSSet.size (selectedTags st))) |}.

(** The events a rendered view can raise: the search box is always there, a
    tag can be clicked when it has a button, and each clear button when it is
    rendered. *)
Definition offers (v : View) (e : Event) : bool :=
  match e with
  | SearchChanged _ => true
  | TagClicked tag => bool_decide (tag ∈ chipTag <$> chips v)
  | ClearFiltersClicked => clearFilters v
  | ClearSearchAndFiltersClicked =>
      match results v with
      | Grid _ => false
      | NoProjectsFound clearSearchAndFilters => clearSearchAndFilters
      end
  end.

(** The states a visitor can bring the page to. *)
Inductive reachable {fold : CaseFold} (catalog : list Project)
    : FilterState → Prop :=
| reachable_initial : reachable catalog initialState
| reachable_step st e :
    reachable catalog st →
    offers (MidenEcosystemPage catalog st) e = true →
    reachable catalog (step st e).

(** The events of [es] can be raised one after the other on the page,
    starting in [st]. *)
Fixpoint offeredRun {fold : CaseFold}
    (catalog : list Project) (st : FilterState) (es : list Event) : bool :=
  match es with
  | [] => true
  | e :: rest =>
      offers (MidenEcosystemPage catalog st) e &&
      offeredRun catalog (step st e) rest
  end.

(** * Facts about the JavaScript operations *)

Section StringFacts.
Import JSString.

Lemma append_nil_l (s : string) : "" +:+ s = s.
Proof. reflexivity. Qed.

Lemma append_cons (c : ascii) (s t : string) :
  String c s +:+ t = String c (s +:+ t).
Proof. reflexivity. Qed.

Lemma append_nil_r (s : string) : s +:+ "" = s.
Proof. induction s as [|c s IH]; [done|]. by rewrite append_cons, IH. Qed.

Lemma startsWith_spec (s t : string) :
  startsWith s t = true ↔ ∃ post, s = t +:+ post.
Proof.
  revert s. induction t as [|c t IH]; intros s; simpl.
  - split; [intros _; by exists s | done].
  - destruct s as [|d s].
    + split; [done | intros [post Hpost]; by rewrite append_cons in Hpost].
    + rewrite andb_true_iff, bool_decide_eq_true, IH. split.
      * intros [-> [post ->]]. by exists post.
      * intros [post Hpost]. rewrite append_cons in Hpost.
        injection Hpost as -> ->. eauto.
Qed.

Lemma includes_spec (s t : string) :
  includes s t = true ↔ isSubstringOf t s.
Proof.
  unfold isSubstringOf. induction s as [|d s IH]; simpl.
  - rewrite orb_false_r, startsWith_spec. split.
    + intros [post Hpost]. by exists "", post.
    + intros [[|c pre] [post Hpost]].
      * by exists post.
      * by rewrite append_cons in Hpost.
  - rewrite orb_true_iff, startsWith_spec, IH. split.
    + intros [[post Hpost] | (pre & post & Hs)].
      * by exists "", post.
      * exists (String d pre), post. by rewrite append_cons, Hs.
    + intros [[|c pre] [post Hpost]].
      * left. by exists post.
      * right. rewrite append_cons in Hpost. injection Hpost as -> ->. eauto.
Qed.

Lemma isSubstringOf_empty (s : string) : isSubstringOf "" s.
Proof. by exists "", s. Qed.

Lemma includes_empty (s : string) : includes s "" = true.
Proof. apply includes_spec, isSubstringOf_empty. Qed.

Lemma isSubstringOf_refl (s : string) : isSubstringOf s s.
Proof. exists "", "". by rewrite append_nil_l, append_nil_r. Qed.

End StringFacts.

Section ArrayFacts.
Context {A : Type}.
Implicit Types (f : A → bool) (arr : list A).

Lemma some_spec f arr :
  JSArray.some f arr = true ↔ ∃ x, x ∈ arr ∧ f x = true.
Proof.
  induction arr as [|y arr IH]; simpl.
  - split; [done | intros (x & Hx & _); by apply elem_of_nil in Hx].
  - destruct (f y) eqn:Hy.
    + split; [intros _; exists y; split; [left | done] | done].
    + rewrite IH. split.
      * intros (x & Hx & Hfx). exists x. split; [by right | done].
      * intros (x & [-> | Hx]%elem_of_cons & Hfx); [congruence | eauto].
Qed.

Lemma every_spec f arr :
  JSArray.every f arr = true ↔ ∀ x, x ∈ arr → f x = true.
Proof.
  induction arr as [|y arr IH]; simpl.
  - split; [intros _ x Hx; by apply elem_of_nil in Hx | done].
  - destruct (f y) eqn:Hy.
    + rewrite IH. split.
      * intros Hall x [-> | Hx]%elem_of_cons; auto.
      * intros Hall x Hx. apply Hall. by right.
    + split; [done | intros Hall]. rewrite <- Hy. apply Hall. left.
Qed.

Lemma elem_of_JSArray_filter f arr x :
  x ∈ JSArray.filter f arr ↔ x ∈ arr ∧ f x = true.
Proof.
  induction arr as [|y arr IH]; simpl.
  - split; [by intros ?%elem_of_nil | by intros [?%elem_of_nil _]].
  - destruct (f y) eqn:Hy; rewrite ?elem_of_cons, IH, ?elem_of_cons.
    + split; [intros [-> | [? ?]]; auto | intros [[-> | ?] ?]; auto].
    + split; [intros [? ?]; auto | intros [[-> | ?] ?]; [congruence | auto]].
Qed.

Lemma JSArray_filter_sublist f arr : JSArray.filter f arr `sublist_of` arr.
Proof.
  induction arr as [|y arr IH]; simpl; [constructor|].
  destruct (f y); by constructor.
Qed.

(** Every subsequence of [arr] whose elements all pass [f] is a subsequence
    of [arr.filter(f)]: nothing that passes is dropped. *)
Lemma JSArray_filter_greatest f arr sub :
  sub `sublist_of` arr → Forall (λ x, f x = true) sub →
  sub `sublist_of` JSArray.filter f arr.
Proof.
  intros Hsub. induction Hsub as [|x l1 l2 _ IH|x l1 l2 _ IH]; simpl; intros Hall.
  - constructor.
  - apply Forall_cons in Hall as [-> Hall]. constructor. by apply IH.
  - destruct (f x); [constructor|]; by apply IH.
Qed.

Lemma JSArray_filter_all f arr :
  (∀ x, x ∈ arr → f x = true) → JSArray.filter f arr = arr.
Proof.
  induction arr as [|y arr IH]; simpl; intros Hall; [done|].
  rewrite (Hall y) by left. f_equal. apply IH. intros x Hx. apply Hall. by right.
Qed.

Lemma JSArray_filter_none f arr :
  (∀ x, x ∈ arr → f x = false) → JSArray.filter f arr = [].
Proof.
  induction arr as [|y arr IH]; simpl; intros Hnone; [done|].
  rewrite (Hnone y) by left. apply IH. intros x Hx. apply Hnone. by right.
Qed.

Lemma JSArray_filter_ext f g arr :
  (∀ x, x ∈ arr → f x = g x) → JSArray.filter f arr = JSArray.filter g arr.
Proof.
  induction arr as [|y arr IH]; simpl; intros Hext; [done|].
  rewrite (Hext y) by left.
  rewrite IH; [done|]. intros x Hx. apply Hext. by right.
Qed.

(** Filtering by a stronger test keeps a subsequence. *)
Lemma JSArray_filter_mono f g arr :
  (∀ x, x ∈ arr → f x = true → g x = true) →
  JSArray.filter f arr `sublist_of` JSArray.filter g arr.
Proof.
  intros Himp. apply JSArray_filter_greatest; [apply JSArray_filter_sublist|].
  apply Forall_forall. intros x [Hx Hfx]%elem_of_JSArray_filter. auto.
Qed.

End ArrayFacts.

Section SetFacts.
Implicit Types (s : JSSet.t) (x y : string).

Lemma has_true s x : JSSet.has s x = true ↔ x ∈ s.
Proof. unfold JSSet.has. apply bool_decide_eq_true. Qed.

Lemma has_false s x : JSSet.has s x = false ↔ x ∉ s.
Proof. unfold JSSet.has. apply bool_decide_eq_false. Qed.

Lemma elem_of_add s x y : y ∈ JSSet.add s x ↔ y ∈ s ∨ y = x.
Proof.
  unfold JSSet.add. destruct (JSSet.has s x) eqn:Hx.
  - apply has_true in Hx. split; [auto | intros [? | ->]; auto].
  - rewrite elem_of_app, list_elem_of_singleton. tauto.
Qed.

Lemma NoDup_add s x : NoDup s → NoDup (JSSet.add s x).
Proof.
  intros Hs. unfold JSSet.add. destruct (JSSet.has s x) eqn:Hx; [done|].
  apply has_false in Hx. apply NoDup_app. split_and!; [done| |apply NoDup_singleton].
  intros y Hy ->%list_elem_of_singleton. done.
Qed.

Lemma elem_of_delete s x y : y ∈ JSSet.delete s x ↔ y ∈ s ∧ y ≠ x.
Proof.
  induction s as [|z s IH]; simpl.
  - split; [by intros ?%elem_of_nil | by intros [?%elem_of_nil _]].
  - case_bool_decide as Hz; rewrite ?elem_of_cons, IH, ?elem_of_cons.
    + subst z. split; [intros [? ?]; auto | intros [[-> | ?] ?]; [done | auto]].
    + split; [intros [-> | [? ?]]; auto | intros [[-> | ?] ?]; auto].
Qed.

Lemma delete_sublist s x : JSSet.delete s x `sublist_of` s.
Proof.
  induction s as [|z s IH]; simpl; [constructor|].
  case_bool_decide; by constructor.
Qed.

Lemma NoDup_delete s x : NoDup s → NoDup (JSSet.delete s x).
Proof. intros Hs. apply (sublist_NoDup _ s Hs), delete_sublist. Qed.

Lemma delete_absent s x : x ∉ s → JSSet.delete s x = s.
Proof.
  induction s as [|z s IH]; simpl; intros Hx; [done|].
  apply not_elem_of_cons in Hx as [Hne Hx].
  rewrite bool_decide_eq_false_2 by done. by rewrite IH.
Qed.

Lemma delete_app s1 s2 x :
  JSSet.delete (s1 ++ s2) x = JSSet.delete s1 x ++ JSSet.delete s2 x.
Proof.
  induction s1 as [|z s1 IH]; simpl; [done|].
  case_bool_decide; by rewrite IH.
Qed.

(** Deleting the element that was just added to a set without it gives the
    set back, order included. *)
Lemma delete_add_absent s x : x ∉ s → JSSet.delete (JSSet.add s x) x = s.
Proof.
  intros Hx. unfold JSSet.add. rewrite (proj2 (has_false s x) Hx).
  rewrite delete_app, delete_absent by done. simpl.
  rewrite bool_decide_eq_true_2 by done. apply app_nil_r.
Qed.

(** Adding back the element that was just deleted gives the same elements,
    the re-added one now being last. *)
Lemma add_delete_present s x :
  NoDup s → x ∈ s → JSSet.add (JSSet.delete s x) x ≡ₚ s.
Proof.
  intros Hs Hx. apply NoDup_Permutation; [|done|].
  - by apply NoDup_add, NoDup_delete.
  - intros y. rewrite elem_of_add, elem_of_delete.
    destruct (decide (y = x)) as [-> | Hne]; tauto.
Qed.

Lemma elem_of_foldl_add (l : list string) s y :
  y ∈ foldl JSSet.add s l ↔ y ∈ s ∨ y ∈ l.
Proof.
  revert s. induction l as [|x l IH]; intros s; simpl.
  - rewrite elem_of_nil. tauto.
  - rewrite IH, elem_of_add, elem_of_cons. tauto.
Qed.

Lemma NoDup_foldl_add (l : list string) s :
  NoDup s → NoDup (foldl JSSet.add s l).
Proof.
  revert s. induction l as [|x l IH]; intros s Hs; simpl; [done|].
  by apply IH, NoDup_add.
Qed.

Lemma foldl_add_NoDup_app (l : list string) s :
  NoDup (s ++ l) → foldl JSSet.add s l = s ++ l.
Proof.
  revert s. induction l as [|x l IH]; intros s Hs; simpl.
  - by rewrite app_nil_r.
  - assert (x ∉ s) as Hx.
    { apply NoDup_app in Hs as (_ & Hdisj & _). intros Hin.
      apply (Hdisj x Hin). left. }
    unfold JSSet.add at 2. rewrite (proj2 (has_false s x) Hx).
    rewrite IH; rewrite <- app_assoc; done.
Qed.

Lemma elem_of_from (l : list string) y : y ∈ JSSet.from l ↔ y ∈ l.
Proof.
  unfold JSSet.from, JSSet.empty. rewrite elem_of_foldl_add, elem_of_nil. tauto.
Qed.

Lemma NoDup_from (l : list string) : NoDup (JSSet.from l).
Proof. apply NoDup_foldl_add. constructor. Qed.

(** Copying a set object gives the same elements in the same order. *)
Lemma from_wf s : JSSet.wf s → JSSet.from s = s.
Proof. intros Hs. unfold JSSet.from, JSSet.empty. by rewrite foldl_add_NoDup_app. Qed.

Lemma elem_of_members s x : x ∈ JSSet.members s ↔ x ∈ s.
Proof. unfold JSSet.members. apply elem_of_list_to_set. Qed.

End SetFacts.

Section SortFacts.
Implicit Types (arr : list string).

Lemma sort_Permutation arr : JSArray.sort arr ≡ₚ arr.
Proof. apply merge_sort_Permutation. Qed.

Lemma sort_StronglySorted arr : StronglySorted String.le (JSArray.sort arr).
Proof. apply (StronglySorted_merge_sort String.le). Qed.

Lemma elem_of_sort arr x : x ∈ JSArray.sort arr ↔ x ∈ arr.
Proof. by rewrite sort_Permutation. Qed.

Lemma NoDup_sort arr : NoDup arr → NoDup (JSArray.sort arr).
Proof. by rewrite sort_Permutation. Qed.

(** The result does not depend on the sorting algorithm: an ascending
    rearrangement of [arr] is [arr.sort()]. *)
Lemma sort_unique arr sorted :
  sorted ≡ₚ arr → Sorted String.le sorted → sorted = JSArray.sort arr.
Proof.
  intros Hperm Hsorted. apply (Sorted_unique String.le); [done| |].
  - apply (Sorted_merge_sort String.le).
  - by rewrite Hperm, sort_Permutation.
Qed.

(** In an ascending array with no repeated element, each element is strictly
    below the ones after it. *)
Lemma StronglySorted_strict arr :
  StronglySorted String.le arr → NoDup arr →
  StronglySorted (strict String.le) arr.
Proof.
  induction 1 as [|x arr _ IH Hall]; intros Hnd; [constructor|].
  apply NoDup_cons in Hnd as [Hx Hnd]. constructor; [by apply IH|].
  apply Forall_forall. intros y Hy. split.
  - by eapply Forall_forall in Hall.
  - intros Hyx. eapply Forall_forall in Hall; [|done].
    assert (x = y) as -> by (by apply (anti_symm String.le)). done.
Qed.

End SortFacts.

(** * The predicates decide what the specification words *)

Section PredicateFacts.
Context {fold : CaseFold}.
Implicit Types (project : Project) (catalog : list Project).

Lemma matchesSearch_hit project searchTerm :
  matchesSearch (toLowerCase searchTerm) project = true ↔
  SearchHit project searchTerm.
Proof.
  unfold matchesSearch, SearchHit.
  rewrite !orb_true_iff, bool_decide_eq_true, !includes_spec, some_spec.
  split.
  - intros [[[Hempty | Hname] | Hdesc] | (tag & Htag & Hinc)].
    + left. rewrite Hempty. apply isSubstringOf_empty.
    + by left.
    + right. by left.
    + right. right. exists tag. by rewrite <- includes_spec.
  - intros [Hname | [Hdesc | (tag & Htag & Hsub)]].
    + left. left. by right.
    + left. by right.
    + right. exists tag. by rewrite includes_spec.
Qed.

Lemma SearchPredicate_hit project searchTerm :
  SearchPredicate project searchTerm ↔ SearchHit project searchTerm.
Proof.
  unfold SearchPredicate. split; [|by right].
  intros [-> | Hhit]; [|done].
  left. rewrite toLowerCase_empty. apply isSubstringOf_empty.
Qed.

Lemma matchesSearch_spec project searchTerm :
  matchesSearch (toLowerCase searchTerm) project = true ↔
  SearchPredicate project searchTerm.
Proof. by rewrite matchesSearch_hit, SearchPredicate_hit. Qed.

Lemma carries_spec project selectedTag :
  JSArray.some
    (λ projectTag, bool_decide (toLowerCase projectTag = toLowerCase selectedTag))
    (tags project) = true ↔
  CarriesTag project selectedTag.
Proof.
  unfold CarriesTag. rewrite some_spec.
  by setoid_rewrite bool_decide_eq_true.
Qed.

Lemma matchesTags_carries project (selectedTags : JSSet.t) :
  matchesTags (JSSet.toArray selectedTags) project = true ↔
  CarriesAll project selectedTags.
Proof.
  unfold matchesTags, CarriesAll, JSSet.toArray.
  rewrite orb_true_iff, bool_decide_eq_true, every_spec.
  setoid_rewrite carries_spec. split; [|by right].
  intros [Hlen | Hall]; [|done].
  apply length_zero_iff_nil in Hlen as ->. by intros t ?%elem_of_nil.
Qed.

Lemma TagPredicate_carries project (selectedTags : JSSet.t) :
  TagPredicate project selectedTags ↔ CarriesAll project selectedTags.
Proof.
  unfold TagPredicate, JSSet.size. split; [|by right].
  intros [Hlen | Hall]; [|done].
  apply length_zero_iff_nil in Hlen as ->. by intros t ?%elem_of_nil.
Qed.

Lemma matchesTags_spec project (selectedTags : JSSet.t) :
  matchesTags (JSSet.toArray selectedTags) project = true ↔
  TagPredicate project selectedTags.
Proof. by rewrite matchesTags_carries, TagPredicate_carries. Qed.

Lemma elem_of_filteredProjects catalog searchTerm (selectedTags : JSSet.t) project :
  project ∈ filteredProjects catalog searchTerm selectedTags ↔
  project ∈ catalog ∧
  SearchPredicate project searchTerm ∧ TagPredicate project selectedTags.
Proof.
  unfold filteredProjects.
  by rewrite elem_of_JSArray_filter, andb_true_iff,
    matchesSearch_spec, matchesTags_spec.
Qed.

(** The tag predicate depends on the elements of the selection only, not on
    their insertion order. *)
Lemma matchesTags_members project (S T : JSSet.t) :
  (∀ x, x ∈ S ↔ x ∈ T) →
  matchesTags (JSSet.toArray S) project = matchesTags (JSSet.toArray T) project.
Proof.
  intros Hmem. apply eq_true_iff_eq. rewrite !matchesTags_carries.
  unfold CarriesAll. by setoid_rewrite Hmem.
Qed.

Lemma filteredProjects_members catalog searchTerm (S T : JSSet.t) :
  (∀ x, x ∈ S ↔ x ∈ T) →
  filteredProjects catalog searchTerm S = filteredProjects catalog searchTerm T.
Proof.
  intros Hmem. unfold filteredProjects. apply JSArray_filter_ext.
  intros project _. by rewrite (matchesTags_members project S T).
Qed.

Lemma matchesTags_antitone project (S T : JSSet.t) :
  S ⊆ T →
  matchesTags (JSSet.toArray T) project = true →
  matchesTags (JSSet.toArray S) project = true.
Proof.
  rewrite !matchesTags_carries. intros Hsub Hall t Ht. apply Hall, Hsub, Ht.
Qed.

Lemma filteredProjects_antitone catalog searchTerm (S T : JSSet.t) :
  S ⊆ T →
  filteredProjects catalog searchTerm T `sublist_of`
  filteredProjects catalog searchTerm S.
Proof.
  intros Hsub. unfold filteredProjects. apply JSArray_filter_mono.
  intros project _ [Hsearch Htags]%andb_true_iff.
  rewrite Hsearch. simpl. by eapply matchesTags_antitone.
Qed.

Lemma filteredProjects_initial catalog : filteredProjects catalog "" JSSet.empty = catalog.
Proof.
  unfold filteredProjects. apply JSArray_filter_all. intros project _.
  rewrite toLowerCase_empty. reflexivity.
Qed.

End PredicateFacts.

(** * The handlers *)

Section HandlerFacts.
Implicit Types (s : JSSet.t) (tag x : string).

Lemma elem_of_updater tag s x :
  x ∈ handleTagClick_updater tag s ↔
  (x ∈ s ∧ x ≠ tag) ∨ (x = tag ∧ tag ∉ s).
Proof.
  unfold handleTagClick_updater.
  destruct (JSSet.has (JSSet.from s) tag) eqn:Htag.
  - apply has_true in Htag. rewrite elem_of_from in Htag.
    rewrite elem_of_delete, elem_of_from. split; [by left|].
    intros [? | [_ ?]]; done.
  - apply has_false in Htag. rewrite elem_of_from in Htag.
    rewrite elem_of_add, elem_of_from. split.
    + intros [Hx | ->]; [left | by right].
      split; [done | by intros ->].
    + intros [[? _] | [? _]]; auto.
Qed.

Lemma NoDup_updater tag s : NoDup (handleTagClick_updater tag s).
Proof.
  unfold handleTagClick_updater. destruct (JSSet.has _ tag).
  - apply NoDup_delete, NoDup_from.
  - apply NoDup_add, NoDup_from.
Qed.

Lemma elem_of_updater_twice tag s x :
  x ∈ handleTagClick_updater tag (handleTagClick_updater tag s) ↔ x ∈ s.
Proof.
  rewrite !elem_of_updater.
  destruct (decide (x = tag)) as [-> | Hne], (decide (tag ∈ s)); tauto.
Qed.

(** A tag that was not selected is selected last, and clicking again removes
    it: the set object has the same elements in the same order. *)
Lemma updater_twice_absent tag s :
  JSSet.wf s → tag ∉ s →
  handleTagClick_updater tag (handleTagClick_updater tag s) = s.
Proof.
  intros Hs Htag. unfold handleTagClick_updater at 2.
  rewrite (from_wf s Hs), (proj2 (has_false s tag) Htag).
  unfold handleTagClick_updater.
  rewrite from_wf by by apply NoDup_add.
  rewrite (proj2 (has_true (JSSet.add s tag) tag)) by (apply elem_of_add; auto).
  by apply delete_add_absent.
Qed.

(** A selected tag is removed, and clicking again selects it last: the same
    elements, possibly in another insertion order. *)
Lemma updater_twice_Permutation tag s :
  JSSet.wf s →
  handleTagClick_updater tag (handleTagClick_updater tag s) ≡ₚ s.
Proof.
  intros Hs. apply NoDup_Permutation; [apply NoDup_updater | done |].
  intros x. apply elem_of_updater_twice.
Qed.

(** Every state the page can reach holds a well-formed set. *)
Lemma step_wf st e :
  JSSet.wf (selectedTags st) → JSSet.wf (selectedTags (step st e)).
Proof.
  intros Hst. destruct e; simpl; [done | apply NoDup_updater | constructor..].
Qed.

Lemma run_wf_from st es :
  JSSet.wf (selectedTags st) → JSSet.wf (selectedTags (run st es)).
Proof.
  unfold run. revert st. induction es as [|e es IH]; intros st Hst; simpl.
  - apply Hst.
  - apply IH. by apply step_wf.
Qed.

Lemma run_wf es : JSSet.wf (selectedTags (run initialState es)).
Proof. apply run_wf_from. constructor. Qed.

End HandlerFacts.

(** * The visible set *)

(** C1. For every catalog, search term and selection, [filteredProjects] is
    the subsequence of the catalog made of the projects for which the search
    predicate and the tag predicate both hold: it is a subsequence of the
    catalog (relative order kept, nothing re-sorted), its members are exactly
    the catalog entries passing both predicates, and every subsequence of the
    catalog whose members all pass is a subsequence of it (no passing entry,
    and no repetition of one, is left out). *)
Theorem filteredProjects_ordered_subsequence {fold : CaseFold}
    (catalog : list Project) (searchTerm : string) (selectedTags : JSSet.t) :
  filteredProjects catalog searchTerm selectedTags `sublist_of` catalog ∧
  (∀ project,
     project ∈ filteredProjects catalog searchTerm selectedTags ↔
     project ∈ catalog ∧
     SearchPredicate project searchTerm ∧ TagPredicate project selectedTags) ∧
  (∀ sub,
     sub `sublist_of` catalog →
     Forall (λ project, SearchPredicate project searchTerm ∧
                        TagPredicate project selectedTags) sub →
     sub `sublist_of` filteredProjects catalog searchTerm selectedTags).
Proof.
  split_and!.
  - apply JSArray_filter_sublist.
  - intros project. apply elem_of_filteredProjects.
  - intros sub Hsub Hall. apply JSArray_filter_greatest; [done|].
    eapply Forall_impl; [exact Hall|]. intros project [Hsearch Htags]. simpl.
    apply andb_true_iff. by rewrite matchesSearch_spec, matchesTags_spec.
Qed.

(** Those three properties determine the visible set. *)
Lemma filteredProjects_unique {fold : CaseFold}
    (catalog visible : list Project) (searchTerm : string) (selectedTags : JSSet.t) :
  visible `sublist_of` catalog →
  Forall (λ project, SearchPredicate project searchTerm ∧
                     TagPredicate project selectedTags) visible →
  (∀ sub,
     sub `sublist_of` catalog →
     Forall (λ project, SearchPredicate project searchTerm ∧
                        TagPredicate project selectedTags) sub →
     sub `sublist_of` visible) →
  visible = filteredProjects catalog searchTerm selectedTags.
Proof.
  intros Hsub Hall Hmax. apply (anti_symm sublist).
  - apply JSArray_filter_greatest; [done|].
    eapply Forall_impl; [exact Hall|]. intros project [Hsearch Htags]. simpl.
    apply andb_true_iff. by rewrite matchesSearch_spec, matchesTags_spec.
  - apply Hmax; [apply JSArray_filter_sublist|]. apply Forall_forall.
    intros project Hp. by apply elem_of_filteredProjects in Hp as (_ & ? & ?).
Qed.

(** C2. For every project and every non-empty search term, [matchesSearch]
    holds exactly when the lower-cased term is a substring of the lower-cased
    name, or of the lower-cased description, or of some lower-cased tag of
    the project.  The term is not trimmed: "Infrastructure" matches the Miden
    Name Service entry (through its tag), and the same term with a space
    after it, or before it, does not. *)
Theorem matchesSearch_substring_untrimmed :
  (∀ (fold : CaseFold) (project : Project) (searchTerm : string),
     searchTerm ≠ "" →
     (matchesSearch (toLowerCase searchTerm) project = true ↔
      JSString.isSubstringOf (toLowerCase searchTerm) (toLowerCase (name project)) ∨
      JSString.isSubstringOf (toLowerCase searchTerm) (toLowerCase (description project)) ∨
      ∃ tag, tag ∈ tags project ∧
             JSString.isSubstringOf (toLowerCase searchTerm) (toLowerCase tag))) ∧
  (∃ (project : Project) (searchTerm : string),
     project ∈ allProjects ∧
     matchesSearch (toLowerCase searchTerm) project = true ∧
     matchesSearch (toLowerCase (searchTerm +:+ " ")) project = false ∧
     matchesSearch (toLowerCase (" " +:+ searchTerm)) project = false).
Proof.
  split.
  - intros fold project searchTerm _. apply matchesSearch_hit.
  - exists midenNameService, "Infrastructure".
    split; [left | by vm_compute].
Qed.

Lemma matchesSearch_substring_untrimmed_witness :
  matchesSearch (toLowerCase "NAME") midenNameService = true ↔
  JSString.isSubstringOf (toLowerCase "NAME") (toLowerCase (name midenNameService)) ∨
  JSString.isSubstringOf (toLowerCase "NAME")
    (toLowerCase (description midenNameService)) ∨
  ∃ tag, tag ∈ tags midenNameService ∧
         JSString.isSubstringOf (toLowerCase "NAME") (toLowerCase tag).
Proof.
  apply (proj1 matchesSearch_substring_untrimmed ascii_fold midenNameService "NAME").
  discriminate.
Defined.

(** C3. For every project and every non-empty selection, [matchesTags] holds
    exactly when every selected tag equals, after lower-casing both, at least
    one tag of the project: all the selected tags must be carried at once.
    With P1 tagged [A; B] and P2 tagged [A], for tags A and B that differ
    after lower-casing, selecting {A, B} shows exactly [P1] and selecting {A}
    shows [P1; P2].  Equality is required, not containment: selecting "Nam"
    does not show a project tagged "Naming". *)
Theorem matchesTags_conjunctive :
  (∀ (fold : CaseFold) (project : Project) (selectedTags : JSSet.t),
     JSSet.size selectedTags ≠ 0 →
     (matchesTags (JSSet.toArray selectedTags) project = true ↔
      ∀ selectedTag, selectedTag ∈ selectedTags →
        ∃ projectTag, projectTag ∈ tags project ∧
                      toLowerCase projectTag = toLowerCase selectedTag)) ∧
  (∀ (fold : CaseFold) (A B : string) (P1 P2 : Project) (selAB selA : JSSet.t),
     toLowerCase A ≠ toLowerCase B →
     tags P1 = [A; B] → tags P2 = [A] →
     (∀ x, x ∈ selAB ↔ x = A ∨ x = B) → (∀ x, x ∈ selA ↔ x = A) →
     filteredProjects [P1; P2] "" selAB = [P1] ∧
     filteredProjects [P1; P2] "" selA = [P1; P2]) ∧
  matchesTags (JSSet.toArray ["Nam"]) midenNameService = false.
Proof.
  split_and!; [| |done].
  - intros fold project selectedTags _. apply matchesTags_carries.
  - intros fold A B P1 P2 selAB selA Hne HP1 HP2 HAB HA.
    assert (∀ sel, matchesTags (JSSet.toArray sel) P1 = true ↔
                   ∀ t, t ∈ sel → toLowerCase t = toLowerCase A ∨
                                   toLowerCase t = toLowerCase B) as H1.
    { intros sel. rewrite matchesTags_carries. unfold CarriesAll, CarriesTag.
      rewrite HP1. apply forall_proper. intros t. apply forall_proper. intros _.
      split.
      - intros (pt & Hpt & Heq). rewrite !elem_of_cons, elem_of_nil in Hpt.
        destruct Hpt as [-> | [-> | []]]; auto.
      - intros [Heq | Heq]; [exists A | exists B];
          rewrite !elem_of_cons; auto. }
    assert (∀ sel, matchesTags (JSSet.toArray sel) P2 = true ↔
                   ∀ t, t ∈ sel → toLowerCase t = toLowerCase A) as H2.
    { intros sel. rewrite matchesTags_carries. unfold CarriesAll, CarriesTag.
      rewrite HP2. apply forall_proper. intros t. apply forall_proper. intros _.
      split.
      - intros (pt & ->%list_elem_of_singleton & Heq). done.
      - intros Heq. exists A. by rewrite list_elem_of_singleton. }
    assert (matchesTags (JSSet.toArray selAB) P1 = true) as HAB1.
    { apply H1. intros t [-> | ->]%HAB; auto. }
    assert (matchesTags (JSSet.toArray selA) P1 = true) as HA1.
    { apply H1. intros t ->%HA. auto. }
    assert (matchesTags (JSSet.toArray selA) P2 = true) as HA2.
    { apply H2. by intros t ->%HA. }
    assert (matchesTags (JSSet.toArray selAB) P2 = false) as HAB2.
    { apply not_true_is_false. rewrite H2. intros Hall.
      apply Hne. symmetry. apply Hall, HAB. by right. }
    unfold filteredProjects. cbv zeta. cbn [JSArray.filter].
    rewrite HAB1, HA1, HA2, HAB2, toLowerCase_empty. done.
Qed.

Lemma matchesTags_conjunctive_witness :
  (matchesTags (JSSet.toArray ["naming"; "UTILITY"]) midenNameService = true ↔
   ∀ selectedTag, selectedTag ∈ ["naming"; "UTILITY"] →
     ∃ projectTag, projectTag ∈ tags midenNameService ∧
                   toLowerCase projectTag = toLowerCase selectedTag) ∧
  filteredProjects
    [Build_Project 1 "P1" "" "" "" ["A"; "B"]; Build_Project 2 "P2" "" "" "" ["A"]]
    "" ["A"; "B"] =
    [Build_Project 1 "P1" "" "" "" ["A"; "B"]] ∧
  filteredProjects
    [Build_Project 1 "P1" "" "" "" ["A"; "B"]; Build_Project 2 "P2" "" "" "" ["A"]]
    "" ["A"] =
    [Build_Project 1 "P1" "" "" "" ["A"; "B"]; Build_Project 2 "P2" "" "" "" ["A"]].
Proof.
  split.
  - apply (proj1 matchesTags_conjunctive ascii_fold). discriminate.
  - apply (proj1 (proj2 matchesTags_conjunctive) ascii_fold "A" "B").
    + discriminate.
    + reflexivity.
    + reflexivity.
    + intros x. rewrite !elem_of_cons, elem_of_nil. tauto.
    + intros x. rewrite !elem_of_cons, elem_of_nil. tauto.
Defined.

(** C4. The empty search term passes [matchesSearch] for every project and
    the empty selection passes [matchesTags] for every project: with an empty
    term only the tags filter, with an empty selection only the term filters,
    and in the initial state (empty term, empty selection) the visible set is
    the whole catalog in its order. *)
Theorem empty_filters_show_everything {fold : CaseFold} :
  (∀ project, matchesSearch (toLowerCase "") project = true) ∧
  (∀ project, matchesTags (JSSet.toArray JSSet.empty) project = true) ∧
  (∀ catalog selectedTags,
     filteredProjects catalog "" selectedTags =
     JSArray.filter (matchesTags (JSSet.toArray selectedTags)) catalog) ∧
  (∀ catalog searchTerm,
     filteredProjects catalog searchTerm JSSet.empty =
     JSArray.filter (matchesSearch (toLowerCase searchTerm)) catalog) ∧
  (∀ catalog, filteredProjects catalog "" JSSet.empty = catalog) ∧
  (∀ catalog, visibleSet catalog initialState = catalog).
Proof.
  split_and!.
  - intros project. by rewrite toLowerCase_empty.
  - done.
  - intros catalog selectedTags. unfold filteredProjects.
    apply JSArray_filter_ext. intros project _. by rewrite toLowerCase_empty.
  - intros catalog searchTerm. unfold filteredProjects.
    apply JSArray_filter_ext. intros project _. apply andb_true_r.
  - apply filteredProjects_initial.
  - intros catalog. apply filteredProjects_initial.
Qed.

(** * The tag vocabulary *)

Section Vocabulary.
Implicit Types (projects : list Project) (tagSet : JSSet.t).

Lemma elem_of_tagSet projects tagSet tag :
  tag ∈ foldl (λ tagSet project, foldl JSSet.add tagSet (tags project))
              tagSet projects ↔
  tag ∈ tagSet ∨ ∃ project, project ∈ projects ∧ tag ∈ tags project.
Proof.
  revert tagSet. induction projects as [|p projects IH]; intros tagSet; simpl.
  - split; [by left | intros [? | (p & ?%elem_of_nil & _)]; done].
  - rewrite IH, elem_of_foldl_add. split.
    + intros [[? | ?] | (q & Hq & Hin)]; [by left | right..].
      * exists p. split; [left | done].
      * exists q. split; [by right | done].
    + intros [? | (q & [-> | Hq]%elem_of_cons & Hin)]; [by left; left | by left; right |].
      right. by exists q.
Qed.

Lemma NoDup_tagSet projects tagSet :
  NoDup tagSet →
  NoDup (foldl (λ tagSet project, foldl JSSet.add tagSet (tags project))
               tagSet projects).
Proof.
  revert tagSet. induction projects as [|p projects IH]; intros tagSet Hnd; simpl.
  - done.
  - by apply IH, NoDup_foldl_add.
Qed.

End Vocabulary.

(** C5. For every catalog, the vocabulary [getAllUniqueTags] holds exactly
    the strings that are a tag of some project (the union of the tag lists,
    membership being equality of strings, so two spellings that differ in
    case are two entries), holds no string twice, and ascends in the
    code-unit order of strings; the empty catalog has the empty vocabulary. *)
Theorem getAllUniqueTags_sorted_union (catalog : list Project) :
  (∀ tag, tag ∈ getAllUniqueTags catalog ↔
          ∃ project, project ∈ catalog ∧ tag ∈ tags project) ∧
  NoDup (getAllUniqueTags catalog) ∧
  StronglySorted String.le (getAllUniqueTags catalog) ∧
  StronglySorted (strict String.le) (getAllUniqueTags catalog) ∧
  getAllUniqueTags [] = [] ∧
  getAllUniqueTags
    [Build_Project 1 "P1" "" "" "" ["b"; "DeFi"; "a"; "Defi"; "b"];
     Build_Project 2 "P2" "" "" "" ["a"; "Z"; "ab"]] =
    ["DeFi"; "Defi"; "Z"; "a"; "ab"; "b"].
Proof.
  assert (NoDup (getAllUniqueTags catalog)) as Hnd.
  { apply NoDup_sort, NoDup_tagSet. constructor. }
  split_and!; [|done|apply sort_StronglySorted| |done|by vm_compute].
  - intros tag. unfold getAllUniqueTags, JSSet.toArray, JSSet.empty. cbv zeta.
    rewrite elem_of_sort, elem_of_tagSet, elem_of_nil. tauto.
  - apply StronglySorted_strict; [apply sort_StronglySorted | done].
Qed.

(** * Selection state *)

(** C6. For every selection [S] and tag [t], clicking [t] twice gives back
    the set [S]: the click removes [t] when it is selected and adds it
    otherwise, so after two clicks the set object has the members of [S],
    answers [has] as [S] does, and filters every catalog as [S] does; the
    search term is untouched. *)
Theorem toggle_twice_restores_selection {fold : CaseFold}
    (S : JSSet.t) (t : string) :
  (∀ x, x ∈ handleTagClick_updater t S ↔ (x ∈ S ∧ x ≠ t) ∨ (x = t ∧ t ∉ S)) ∧
  JSSet.members (handleTagClick_updater t (handleTagClick_updater t S)) =
    JSSet.members S ∧
  (∀ x, JSSet.has (handleTagClick_updater t (handleTagClick_updater t S)) x =
        JSSet.has S x) ∧
  (∀ term,
     JSSet.members
       (selectedTags (run {| searchTerm := term; selectedTags := S |}
                          [TagClicked t; TagClicked t])) = JSSet.members S ∧
     searchTerm (run {| searchTerm := term; selectedTags := S |}
                     [TagClicked t; TagClicked t]) = term) ∧
  (∀ catalog term,
     filteredProjects catalog term
       (handleTagClick_updater t (handleTagClick_updater t S)) =
     filteredProjects catalog term S).
Proof.
  assert (JSSet.members (handleTagClick_updater t (handleTagClick_updater t S)) =
          JSSet.members S) as Hmem.
  { apply set_eq. intros x. rewrite !elem_of_members. apply elem_of_updater_twice. }
  split_and!.
  - intros x. apply elem_of_updater.
  - done.
  - intros x. apply eq_true_iff_eq. rewrite !has_true. apply elem_of_updater_twice.
  - intros term. by split.
  - intros catalog term. apply filteredProjects_members.
    intros x. apply elem_of_updater_twice.
Qed.

(** C7. From every state, the "Clear Search & Filters" handler leads to the
    state with the empty search term and the empty selection.  Both setters
    are called in the one handler and applied before the next render, which
    therefore sees both resets at once and shows the whole catalog. *)
Theorem clearAll_resets_both {fold : CaseFold} (st : FilterState) :
  step st ClearSearchAndFiltersClicked =
    {| searchTerm := ""; selectedTags := JSSet.empty |} ∧
  searchTerm (step st ClearSearchAndFiltersClicked) = "" ∧
  JSSet.members (selectedTags (step st ClearSearchAndFiltersClicked)) = ∅ ∧
  JSSet.size (selectedTags (step st ClearSearchAndFiltersClicked)) = 0 ∧
  (∀ catalog, visibleSet catalog (step st ClearSearchAndFiltersClicked) = catalog).
Proof.
  split_and!; try done.
  intros catalog. apply filteredProjects_initial.
Qed.

(** C8. From every state, "Clear Filters" empties the selection and leaves
    the search term as it was; a click on a tag changes the selection only;
    a change of the search box stores the text as typed and leaves the
    selection as it was. *)
Theorem handlers_frame (st : FilterState) :
  (selectedTags (step st ClearFiltersClicked) = JSSet.empty ∧
   searchTerm (step st ClearFiltersClicked) = searchTerm st) ∧
  (∀ tag,
     searchTerm (step st (TagClicked tag)) = searchTerm st ∧
     selectedTags (step st (TagClicked tag)) =
       handleTagClick_updater tag (selectedTags st)) ∧
  (∀ text,
     searchTerm (step st (SearchChanged text)) = text ∧
     selectedTags (step st (SearchChanged text)) = selectedTags st).
Proof. split_and!; [done | done | by intros tag | by intros text]. Qed.

(** * Consequences for the visible set *)

(** C9. For every catalog and search term, when the selection holds a tag
    that equals, after lower-casing, no tag of any project of the catalog,
    the visible set is empty. *)
Theorem unmatched_tag_empties_visible {fold : CaseFold}
    (catalog : list Project) (searchTerm : string)
    (selectedTags : JSSet.t) (selectedTag : string) :
  selectedTag ∈ selectedTags →
  (∀ project projectTag,
     project ∈ catalog → projectTag ∈ tags project →
     toLowerCase projectTag ≠ toLowerCase selectedTag) →
  filteredProjects catalog searchTerm selectedTags = [].
Proof.
  intros Hsel Hnone. unfold filteredProjects. apply JSArray_filter_none.
  intros project Hproject. apply andb_false_iff. right.
  apply not_true_is_false. rewrite matchesTags_carries. intros Hall.
  destruct (Hall selectedTag Hsel) as (projectTag & Htag & Heq).
  by apply (Hnone project projectTag).
Qed.

Lemma unmatched_tag_empties_visible_witness :
  filteredProjects allProjects "miden" ["Naming"; "DeFi"] = [].
Proof.
  apply (unmatched_tag_empties_visible allProjects "miden" ["Naming"; "DeFi"] "DeFi").
  - right. left.
  - intros project projectTag Hproject Htag.
    apply list_elem_of_singleton in Hproject. subst project.
    simpl in Htag. rewrite !elem_of_cons, elem_of_nil in Htag.
    destruct Htag as [-> | [-> | [-> | []]]]; discriminate.
Defined.

(** C10. The tag filter is antitone in the selection.  For selections
    [S ⊆ T], a project that passes [matchesTags] under [T] passes under [S],
    so the visible set under [T] is a subsequence of the visible set under
    [S]; in particular, clicking a tag that is not selected shows a
    subsequence of what was shown, and every project shown after the click
    was shown before it. *)
Theorem tag_filter_antitone :
  (∀ (fold : CaseFold) (project : Project) (S T : JSSet.t),
     S ⊆ T →
     matchesTags (JSSet.toArray T) project = true →
     matchesTags (JSSet.toArray S) project = true) ∧
  (∀ (fold : CaseFold) (catalog : list Project) (searchTerm : string)
     (S T : JSSet.t),
     S ⊆ T →
     filteredProjects catalog searchTerm T `sublist_of`
     filteredProjects catalog searchTerm S) ∧
  (∀ (fold : CaseFold) (catalog : list Project) (searchTerm : string)
     (S : JSSet.t) (t : string),
     t ∉ S →
     filteredProjects catalog searchTerm (handleTagClick_updater t S) `sublist_of`
     filteredProjects catalog searchTerm S ∧
     ∀ project,
       project ∈ filteredProjects catalog searchTerm (handleTagClick_updater t S) →
       project ∈ filteredProjects catalog searchTerm S).
Proof.
  split_and!.
  - intros fold project S T. apply matchesTags_antitone.
  - intros fold catalog searchTerm S T. apply filteredProjects_antitone.
  - intros fold catalog searchTerm S t Ht.
    assert (filteredProjects catalog searchTerm (handleTagClick_updater t S)
              `sublist_of` filteredProjects catalog searchTerm S) as Hsub.
    { apply filteredProjects_antitone. intros x Hx.
      apply elem_of_updater. left. split; [done | by intros ->]. }
    split; [done|]. intros project Hproject. by eapply elem_of_sublist.
Qed.

Lemma tag_filter_antitone_witness :
  (matchesTags (JSSet.toArray ["Utility"]) midenNameService = true) ∧
  filteredProjects allProjects "name" ["Utility"; "DeFi"] `sublist_of`
  filteredProjects allProjects "name" ["Utility"] ∧
  filteredProjects allProjects "name" (handleTagClick_updater "DeFi" ["Utility"])
    `sublist_of` filteredProjects allProjects "name" ["Utility"].
Proof.
  split_and!.
  - apply (proj1 tag_filter_antitone ascii_fold midenNameService
             ["Utility"] ["Utility"; "Naming"]).
    + intros x Hx. apply list_elem_of_singleton in Hx. subst x. left.
    + reflexivity.
  - apply (proj1 (proj2 tag_filter_antitone) ascii_fold).
    intros x Hx. apply list_elem_of_singleton in Hx. subst x. left.
  - apply (proj2 (proj2 tag_filter_antitone) ascii_fold).
    intros Hin. apply list_elem_of_singleton in Hin. discriminate.
Defined.

(** * The page on concrete inputs *)

(** The chips of the page, in display order. *)
Example vocabulary_of_allProjects :
  getAllUniqueTags allProjects = ["Infrastructure"; "Naming"; "Utility"].
Proof. by vm_compute. Qed.

(** Search ignores case. *)
Example search_ignores_case :
  filteredProjects allProjects "miden" JSSet.empty = allProjects ∧
  filteredProjects allProjects "MIDEN" JSSet.empty = allProjects.
Proof. by vm_compute. Qed.

(** Both predicates must hold. *)
Example search_and_tags_combine :
  filteredProjects
    [Build_Project 1 "X" "" "" "" ["Naming"]; Build_Project 2 "X" "" "" "" ["Utility"]]
    "x" ["Naming"] =
  [Build_Project 1 "X" "" "" "" ["Naming"]].
Proof. by vm_compute. Qed.

(** A session: everything is shown at first, still shown once "Naming" is
    selected, and nothing is shown once "zzz" is typed as well; "Clear Search
    & Filters" then shows everything again. *)
Example session :
  visibleSet allProjects initialState = allProjects ∧
  visibleSet allProjects (run initialState [TagClicked "Naming"]) = allProjects ∧
  visibleSet allProjects
    (run initialState [TagClicked "Naming"; SearchChanged "zzz"]) = [] ∧
  visibleSet allProjects
    (run initialState
       [TagClicked "Naming"; SearchChanged "zzz"; ClearSearchAndFiltersClicked]) =
  allProjects.
Proof. by vm_compute. Qed.

(** Clicking a selected tag and clicking it again moves it to the end of the
    insertion order; the members are the same. *)
Example toggle_twice_order :
  handleTagClick_updater "b" (handleTagClick_updater "b" ["a"; "b"; "c"]) =
    ["a"; "c"; "b"] ∧
  handleTagClick_updater "d" (handleTagClick_updater "d" ["a"; "b"; "c"]) =
    ["a"; "b"; "c"].
Proof. by vm_compute. Qed.

(** * Further properties of the vocabulary *)

(** X1. The vocabulary depends on the catalog only through the set of
    strings that occur as a tag: two catalogs with the same tags, in whatever
    order and however often repeated, give the same list of tag buttons. *)
Theorem getAllUniqueTags_same_tags (catalog1 catalog2 : list Project) :
  (∀ tag, (∃ project, project ∈ catalog1 ∧ tag ∈ tags project) ↔
          (∃ project, project ∈ catalog2 ∧ tag ∈ tags project)) →
  getAllUniqueTags catalog1 = getAllUniqueTags catalog2.
Proof.
  intros Hsame. unfold getAllUniqueTags, JSSet.toArray. cbv zeta.
  apply sort_unique; [|apply (Sorted_merge_sort String.le)].
  rewrite sort_Permutation.
  apply NoDup_Permutation; [apply NoDup_tagSet; constructor..|].
  intros tag. rewrite !elem_of_tagSet. unfold JSSet.empty.
  rewrite elem_of_nil. specialize (Hsame tag). tauto.
Qed.

Lemma getAllUniqueTags_same_tags_witness :
  getAllUniqueTags
    [Build_Project 1 "P1" "" "" "" ["b"; "a"]; Build_Project 2 "P2" "" "" "" ["c"; "a"]] =
  getAllUniqueTags
    [Build_Project 7 "Q" "" "" "" ["c"; "c"; "a"; "b"]].
Proof.
  apply getAllUniqueTags_same_tags. intros tag. split.
  - intros (project & Hproject & Htag). eexists. split; [left|].
    rewrite !elem_of_cons, elem_of_nil in Hproject.
    destruct Hproject as [-> | [-> | []]]; simpl in *;
      rewrite !elem_of_cons, elem_of_nil in *; tauto.
  - intros (project & Hproject & Htag).
    apply list_elem_of_singleton in Hproject. subst project. simpl in Htag.
    rewrite !elem_of_cons, elem_of_nil in Htag.
    destruct Htag as [-> | [-> | [-> | [-> | []]]]].
    + eexists. split; [right; left|]. left.
    + eexists. split; [right; left|]. left.
    + eexists. split; [left|]. right. left.
    + eexists. split; [left|]. left.
Defined.

(** * Further properties of the filter *)

Section FilterProperties.
Context {fold : CaseFold}.
Implicit Types (project : Project) (catalog : list Project) (S : JSSet.t).

Lemma append_assoc (s1 s2 s3 : string) : (s1 +:+ s2) +:+ s3 = s1 +:+ s2 +:+ s3.
Proof.
  induction s1 as [|c s1 IH]; [done|]. by rewrite !append_cons, IH.
Qed.

Lemma isSubstringOf_trans (s1 s2 s3 : string) :
  JSString.isSubstringOf s1 s2 → JSString.isSubstringOf s2 s3 →
  JSString.isSubstringOf s1 s3.
Proof.
  intros (pre1 & post1 & ->) (pre2 & post2 & ->).
  exists (pre2 +:+ pre1), (post1 +:+ post2). by rewrite !append_assoc.
Qed.

Lemma JSArray_filter_app {A : Type} (f : A → bool) (arr1 arr2 : list A) :
  JSArray.filter f (arr1 ++ arr2) = JSArray.filter f arr1 ++ JSArray.filter f arr2.
Proof.
  induction arr1 as [|x arr1 IH]; simpl; [done|].
  destruct (f x); by rewrite IH.
Qed.

Lemma JSArray_filter_filter {A : Type} (f g : A → bool) (arr : list A) :
  JSArray.filter f (JSArray.filter g arr) =
  JSArray.filter (λ x, g x && f x) arr.
Proof.
  induction arr as [|x arr IH]; simpl; [done|].
  destruct (g x); simpl; [destruct (f x)|]; by rewrite IH.
Qed.

Lemma SearchHit_own_fields project :
  SearchHit project (name project) ∧
  SearchHit project (description project) ∧
  ∀ tag, tag ∈ tags project → SearchHit project tag.
Proof.
  unfold SearchHit. split_and!.
  - left. apply isSubstringOf_refl.
  - right. left. apply isSubstringOf_refl.
  - intros tag Htag. right. right. exists tag. split; [done|].
    apply isSubstringOf_refl.
Qed.

Lemma CarriesAll_own_tags project S : S ⊆ tags project → CarriesAll project S.
Proof. intros Hsub tag Htag. exists tag. split; [by apply Hsub | done]. Qed.

(** X2. A project of the catalog stays visible when any of its own tags are
    selected and the search box holds nothing, or its name, or its
    description, or one of its tags. *)
Theorem own_fields_find_project catalog project S :
  project ∈ catalog → S ⊆ tags project →
  project ∈ filteredProjects catalog "" S ∧
  project ∈ filteredProjects catalog (name project) S ∧
  project ∈ filteredProjects catalog (description project) S ∧
  ∀ tag, tag ∈ tags project → project ∈ filteredProjects catalog tag S.
Proof.
  intros Hin Hsub.
  pose proof (CarriesAll_own_tags project S Hsub) as Hall.
  apply TagPredicate_carries in Hall.
  destruct (SearchHit_own_fields project) as (Hname & Hdesc & Htags).
  split_and!; [| | |intros tag Htag]; apply elem_of_filteredProjects;
    (split_and!; [done| |done]).
  - by left.
  - by right.
  - by right.
  - right. by apply Htags.
Qed.

(** X3. A longer search term never shows more: when the lower-cased first
    term occurs in the lower-cased second term, what is visible under the
    second term is a subsequence of what is visible under the first. *)
Theorem search_antitone_in_term catalog (term1 term2 : string) S :
  JSString.isSubstringOf (toLowerCase term1) (toLowerCase term2) →
  filteredProjects catalog term2 S `sublist_of` filteredProjects catalog term1 S.
Proof.
  intros Hsub. unfold filteredProjects. apply JSArray_filter_mono.
  intros project _ [Hsearch Htags]%andb_true_iff.
  apply andb_true_iff. split; [|done].
  apply matchesSearch_hit. apply matchesSearch_hit in Hsearch.
  unfold SearchHit in *.
  destruct Hsearch as [Hn | [Hd | (tag & Htag & Ht)]].
  - left. by eapply isSubstringOf_trans.
  - right. left. by eapply isSubstringOf_trans.
  - right. right. exists tag. split; [done|]. by eapply isSubstringOf_trans.
Qed.

(** X4. A project without tags passes the tag predicate for the empty
    selection only: once any tag is selected it is hidden, whatever the
    search term. *)
Theorem untagged_project_hidden catalog project (searchTerm : string) S :
  tags project = [] →
  (matchesTags (JSSet.toArray S) project = true ↔ S = []) ∧
  (S ≠ [] → project ∉ filteredProjects catalog searchTerm S).
Proof.
  intros Hnone.
  assert (matchesTags (JSSet.toArray S) project = true ↔ S = []) as Hiff.
  { rewrite matchesTags_carries. unfold CarriesAll, CarriesTag. rewrite Hnone.
    split.
    - destruct S as [|tag S]; [done|]. intros Hall.
      destruct (Hall tag) as (projectTag & Hin & _); [left|].
      by apply elem_of_nil in Hin.
    - intros -> tag Htag. by apply elem_of_nil in Htag. }
  split; [done|]. intros Hne Hin.
  apply elem_of_filteredProjects in Hin as (_ & _ & Htags).
  apply matchesTags_spec, Hiff in Htags. done.
Qed.

(** X5. Each project is judged on its own: the visible set of two catalogs
    put one after the other is the visible set of the first followed by the
    visible set of the second. *)
Theorem filteredProjects_app catalog1 catalog2 (searchTerm : string) S :
  filteredProjects (catalog1 ++ catalog2) searchTerm S =
  filteredProjects catalog1 searchTerm S ++ filteredProjects catalog2 searchTerm S.
Proof. unfold filteredProjects. apply JSArray_filter_app. Qed.

(** X6. The two filters compose in either order and applying them again
    changes nothing: filtering by the term and then by the selection, or by
    the selection and then by the term, gives the visible set, and the
    visible set filtered once more is itself. *)
Theorem filters_compose catalog (searchTerm : string) S :
  filteredProjects (filteredProjects catalog searchTerm JSSet.empty) "" S =
    filteredProjects catalog searchTerm S ∧
  filteredProjects (filteredProjects catalog "" S) searchTerm JSSet.empty =
    filteredProjects catalog searchTerm S ∧
  filteredProjects (filteredProjects catalog searchTerm S) searchTerm S =
    filteredProjects catalog searchTerm S.
Proof.
  unfold filteredProjects. rewrite !JSArray_filter_filter. split_and!;
    apply JSArray_filter_ext; intros project _;
    rewrite ?toLowerCase_empty; simpl;
    destruct (matchesSearch (toLowerCase searchTerm) project),
      (matchesTags (JSSet.toArray S) project); reflexivity.
Qed.

(** X7. Filtering ignores case on the visitor's side: two search terms with
    the same lower-casing, and two selections whose tags have the same
    lower-casings, show the same projects. *)
Theorem filter_ignores_case catalog (term1 term2 : string) (S1 S2 : JSSet.t) :
  toLowerCase term1 = toLowerCase term2 →
  (∀ x, x ∈ toLowerCase <$> S1 ↔ x ∈ toLowerCase <$> S2) →
  filteredProjects catalog term1 S1 = filteredProjects catalog term2 S2.
Proof.
  intros Hterm Hsel. unfold filteredProjects. rewrite Hterm.
  apply JSArray_filter_ext. intros project _. f_equal.
  apply eq_true_iff_eq. rewrite !matchesTags_carries.
  assert (∀ (T1 T2 : JSSet.t),
            (∀ x, x ∈ toLowerCase <$> T1 → x ∈ toLowerCase <$> T2) →
            CarriesAll project T2 → CarriesAll project T1) as Hone.
  { intros T1 T2 Hsub Hall tag Htag.
    assert (toLowerCase tag ∈ toLowerCase <$> T2) as Hin.
    { apply Hsub, list_elem_of_fmap. by exists tag. }
    apply list_elem_of_fmap in Hin as (tag' & Heq & Htag').
    destruct (Hall tag' Htag') as (projectTag & Hp & Hpeq).
    exists projectTag. split; [done|]. by rewrite Hpeq. }
  split; apply Hone; intros x; apply Hsel.
Qed.

End FilterProperties.

Lemma own_fields_find_project_witness :
  midenNameService ∈ filteredProjects allProjects "" ["Utility"] ∧
  midenNameService ∈ filteredProjects allProjects (name midenNameService) ["Utility"] ∧
  midenNameService ∈
    filteredProjects allProjects (description midenNameService) ["Utility"] ∧
  ∀ tag, tag ∈ tags midenNameService →
         midenNameService ∈ filteredProjects allProjects tag ["Utility"].
Proof.
  apply (own_fields_find_project allProjects midenNameService ["Utility"]).
  - left.
  - intros x Hx. apply list_elem_of_singleton in Hx. subst x. right. left.
Defined.

Lemma search_antitone_in_term_witness :
  filteredProjects allProjects "Name Serv" ["Naming"] `sublist_of`
  filteredProjects allProjects "NAME" ["Naming"].
Proof.
  apply (search_antitone_in_term allProjects "NAME" "Name Serv" ["Naming"]).
  exists "", " serv". reflexivity.
Defined.

Lemma untagged_project_hidden_witness :
  (matchesTags (JSSet.toArray ["Naming"]) (Build_Project 2 "Bare" "" "" "" []) = true ↔
   ["Naming"] = []) ∧
  (["Naming"] ≠ [] →
   Build_Project 2 "Bare" "" "" "" [] ∉
   filteredProjects [midenNameService; Build_Project 2 "Bare" "" "" "" []]
     "" ["Naming"]).
Proof.
  apply (untagged_project_hidden
           [midenNameService; Build_Project 2 "Bare" "" "" "" []]
           (Build_Project 2 "Bare" "" "" "" []) "" ["Naming"]).
  reflexivity.
Defined.

Lemma filter_ignores_case_witness :
  filteredProjects allProjects "MIDEN" ["naming"; "UTILITY"] =
  filteredProjects allProjects "miden" ["Utility"; "NAMING"].
Proof.
  apply (filter_ignores_case allProjects "MIDEN" "miden"
           ["naming"; "UTILITY"] ["Utility"; "NAMING"]).
  - reflexivity.
  - intros x. simpl. rewrite !elem_of_cons, elem_of_nil. tauto.
Defined.

(** * Further properties of the selection *)

Section SelectionProperties.
Implicit Types (S : JSSet.t) (t u x : string).

Lemma length_delete_present S x :
  NoDup S → x ∈ S → length S = Datatypes.S (length (JSSet.delete S x)).
Proof.
  induction S as [|y S IH]; simpl; intros Hnd Hx; [by apply elem_of_nil in Hx|].
  apply NoDup_cons in Hnd as [Hy Hnd]. case_bool_decide as Hyx.
  - subst y. by rewrite delete_absent.
  - apply elem_of_cons in Hx as [-> | Hx]; [done|]. simpl. by rewrite <- IH.
Qed.

Lemma updater_wf t S :
  JSSet.wf S →
  handleTagClick_updater t S =
  if JSSet.has S t then JSSet.delete S t else S ++ [t].
Proof.
  intros Hwf. unfold handleTagClick_updater. rewrite (from_wf S Hwf).
  destruct (JSSet.has S t) eqn:Ht; [done|].
  unfold JSSet.add. by rewrite Ht.
Qed.

Lemma has_updater t S x :
  JSSet.has (handleTagClick_updater t S) x =
  if bool_decide (x = t) then negb (JSSet.has S t) else JSSet.has S x.
Proof.
  apply eq_true_iff_eq. rewrite has_true, elem_of_updater.
  case_bool_decide as Hx.
  - subst x. rewrite negb_true_iff, has_false. tauto.
  - rewrite has_true. tauto.
Qed.

(** X8. A click on a tag flips the membership of that tag and of no other,
    and on a set object it changes the size by exactly one: one less when
    the tag was selected, one more when it was not. *)
Theorem toggle_flips_one_tag S t :
  JSSet.wf S →
  JSSet.has (handleTagClick_updater t S) t = negb (JSSet.has S t) ∧
  (∀ x, x ≠ t → JSSet.has (handleTagClick_updater t S) x = JSSet.has S x) ∧
  (JSSet.has S t = true →
   Datatypes.S (JSSet.size (handleTagClick_updater t S)) = JSSet.size S) ∧
  (JSSet.has S t = false →
   JSSet.size (handleTagClick_updater t S) = Datatypes.S (JSSet.size S)) ∧
  JSSet.wf (handleTagClick_updater t S).
Proof.
  intros Hwf. split_and!.
  - rewrite has_updater. by rewrite bool_decide_eq_true_2.
  - intros x Hx. rewrite has_updater. by rewrite bool_decide_eq_false_2.
  - intros Ht. rewrite updater_wf, Ht by done. unfold JSSet.size.
    symmetry. apply length_delete_present; [done | by apply has_true].
  - intros Ht. rewrite updater_wf, Ht by done. unfold JSSet.size.
    rewrite length_app. simpl. lia.
  - apply NoDup_updater.
Qed.

Lemma elem_of_updater_comm t u S x :
  x ∈ handleTagClick_updater t (handleTagClick_updater u S) ↔
  x ∈ handleTagClick_updater u (handleTagClick_updater t S).
Proof.
  rewrite <- !has_true, !has_updater.
  repeat case_bool_decide; by subst.
Qed.

(** X9. Clicks on tags commute: clicking [t] then [u], or [u] then [t],
    selects the same tags and shows the same projects. *)
Theorem toggles_commute {fold : CaseFold} S t u :
  JSSet.members (handleTagClick_updater t (handleTagClick_updater u S)) =
  JSSet.members (handleTagClick_updater u (handleTagClick_updater t S)) ∧
  ∀ catalog term,
    filteredProjects catalog term
      (handleTagClick_updater t (handleTagClick_updater u S)) =
    filteredProjects catalog term
      (handleTagClick_updater u (handleTagClick_updater t S)).
Proof.
  split.
  - apply set_eq. intros x. rewrite !elem_of_members. apply elem_of_updater_comm.
  - intros catalog term. apply filteredProjects_members.
    intros x. apply elem_of_updater_comm.
Qed.

Lemma run_app st (es1 es2 : list Event) :
  run st (es1 ++ es2) = run (run st es1) es2.
Proof. unfold run. apply foldl_app. Qed.

(** X10. "Clear Search & Filters" forgets the session: whatever happened
    before it and from whatever state, the events after it act as on a
    freshly loaded page. *)
Theorem clearAll_forgets_history st (before after : list Event) :
  run st (before ++ ClearSearchAndFiltersClicked :: after) =
  run initialState after.
Proof. by rewrite run_app. Qed.

End SelectionProperties.

Lemma toggle_flips_one_tag_witness :
  JSSet.has (handleTagClick_updater "b" ["a"; "b"; "c"]) "b" =
    negb (JSSet.has ["a"; "b"; "c"] "b") ∧
  (∀ x, x ≠ "b" →
     JSSet.has (handleTagClick_updater "b" ["a"; "b"; "c"]) x =
     JSSet.has ["a"; "b"; "c"] x) ∧
  (JSSet.has ["a"; "b"; "c"] "b" = true →
   S (JSSet.size (handleTagClick_updater "b" ["a"; "b"; "c"])) =
   JSSet.size ["a"; "b"; "c"]) ∧
  (JSSet.has ["a"; "b"; "c"] "b" = false →
   JSSet.size (handleTagClick_updater "b" ["a"; "b"; "c"]) =
   S (JSSet.size ["a"; "b"; "c"])) ∧
  JSSet.wf (handleTagClick_updater "b" ["a"; "b"; "c"]).
Proof.
  apply (toggle_flips_one_tag ["a"; "b"; "c"] "b").
  unfold JSSet.wf. apply (bool_decide_unpack _). vm_compute. exact I.
Defined.

(** * Properties of the rendered page *)

Section ViewProperties.
Context {fold : CaseFold}.
Implicit Types (catalog : list Project) (st : FilterState).

Lemma chips_tags catalog st :
  chipTag <$> chips (MidenEcosystemPage catalog st) = getAllUniqueTags catalog.
Proof.
  unfold MidenEcosystemPage. cbn [chips].
  induction (getAllUniqueTags catalog) as [|tag l IH]; [done|].
  rewrite !fmap_cons. by rewrite IH.
Qed.

Lemma selected_chips_tags (S : JSSet.t) (l : list string) :
  chipTag <$>
    JSArray.filter chipSelected
      ((λ tag, {| chipTag := tag; chipSelected := JSSet.has S tag |}) <$> l) =
  JSArray.filter (JSSet.has S) l.
Proof.
  induction l as [|tag l IH]; [done|].
  rewrite fmap_cons. cbn [JSArray.filter chipSelected].
  destruct (JSSet.has S tag); [rewrite fmap_cons|]; by rewrite IH.
Qed.

Lemma NoDup_getAllUniqueTags catalog : NoDup (getAllUniqueTags catalog).
Proof. apply NoDup_sort, NoDup_tagSet. constructor. Qed.

Lemma elem_of_getAllUniqueTags catalog tag :
  tag ∈ getAllUniqueTags catalog ↔
  ∃ project, project ∈ catalog ∧ tag ∈ tags project.
Proof.
  unfold getAllUniqueTags, JSSet.toArray, JSSet.empty. cbv zeta.
  rewrite elem_of_sort, elem_of_tagSet, elem_of_nil. tauto.
Qed.

Lemma results_cases catalog st :
  (visibleSet catalog st ≠ [] ∧
   results (MidenEcosystemPage catalog st) =
     Grid (renderCard <$> visibleSet catalog st)) ∨
  (visibleSet catalog st = [] ∧
   results (MidenEcosystemPage catalog st) =
     NoProjectsFound
       (truthy (searchTerm st) ||
        bool_decide (0 < JSSet.size (selectedTags st)))).
Proof.
  unfold MidenEcosystemPage, visibleSet. cbn [results].
  destruct (filteredProjects catalog (searchTerm st) (selectedTags st))
    as [|project visible]; [right | left]; by split.
Qed.

(** X11. The tag buttons have pairwise different React keys, in ascending
    order, whatever the state; a rendered card never has an empty tag row;
    and every tag shown on a rendered card has its button. *)
Theorem chip_keys_unique catalog st :
  NoDup (chipTag <$> chips (MidenEcosystemPage catalog st)) ∧
  StronglySorted (strict String.le)
    (chipTag <$> chips (MidenEcosystemPage catalog st)) ∧
  ∀ cards card cardTagList,
    results (MidenEcosystemPage catalog st) = Grid cards →
    card ∈ cards → cardTags card = Some cardTagList →
    cardTagList ≠ [] ∧
    ∀ tag, tag ∈ cardTagList →
           tag ∈ chipTag <$> chips (MidenEcosystemPage catalog st).
Proof.
  rewrite chips_tags. split_and!.
  - apply NoDup_getAllUniqueTags.
  - apply StronglySorted_strict;
      [apply sort_StronglySorted | apply NoDup_getAllUniqueTags].
  - intros cards card cardTagList Hres Hcard Htags.
    destruct (results_cases catalog st) as [[_ Hgrid] | [_ Hnone]];
      [|congruence].
    rewrite Hgrid in Hres. injection Hres as <-.
    apply list_elem_of_fmap in Hcard as (project & -> & Hproject).
    unfold renderCard in Htags. cbn [cardTags] in Htags.
    case_bool_decide as Hlen; [|done]. injection Htags as <-. split.
    + intros Hnil. rewrite Hnil in Hlen. simpl in Hlen. lia.
    + intros tag Htag. apply elem_of_getAllUniqueTags. exists project.
      split; [|done].
      apply elem_of_JSArray_filter in Hproject as [Hproject _]. done.
Qed.

Lemma reachable_invariant catalog st :
  reachable catalog st →
  JSSet.wf (selectedTags st) ∧ selectedTags st ⊆ getAllUniqueTags catalog.
Proof.
  induction 1 as [|st e _ [IHwf IHsub] Hoffer].
  - split; [constructor | by intros x ?%elem_of_nil].
  - split; [by apply step_wf|].
    destruct e as [value|tag| |]; simpl.
    + done.
    + unfold offers in Hoffer. apply bool_decide_eq_true in Hoffer.
      rewrite chips_tags in Hoffer.
      intros x [[Hx _] | [-> _]]%elem_of_updater; [by apply IHsub | done].
    + by intros x ?%elem_of_nil.
    + by intros x ?%elem_of_nil.
Qed.

(** X12. Whatever the visitor does, the selection only holds tags that have
    a button: in every reachable state the set object has no repeated
    element, its tags all belong to the vocabulary, there are at most as many
    as buttons, and each of them is carried by some project of the
    catalog. *)
Theorem reachable_selection_in_vocabulary catalog st :
  reachable catalog st →
  JSSet.wf (selectedTags st) ∧
  selectedTags st ⊆ getAllUniqueTags catalog ∧
  JSSet.size (selectedTags st) ≤ length (getAllUniqueTags catalog) ∧
  ∀ tag, tag ∈ selectedTags st →
         ∃ project, project ∈ catalog ∧ CarriesTag project tag.
Proof.
  intros [Hwf Hsub]%reachable_invariant. split_and!; [done | done | |].
  - apply submseteq_length, NoDup_submseteq; done.
  - intros tag Htag. apply Hsub, elem_of_getAllUniqueTags in Htag.
    destruct Htag as (project & Hproject & Htag).
    exists project. split; [done|]. by exists tag.
Qed.

(** X13. No filter is hidden: in every reachable state the buttons drawn as
    selected are exactly the selected tags, each once, and the "Clear
    Filters" button is rendered exactly when some button is drawn as
    selected. *)
Theorem selected_chips_are_selection catalog st :
  reachable catalog st →
  chipTag <$>
    JSArray.filter chipSelected (chips (MidenEcosystemPage catalog st))
    ≡ₚ selectedTags st ∧
  length (JSArray.filter chipSelected (chips (MidenEcosystemPage catalog st))) =
    JSSet.size (selectedTags st) ∧
  (clearFilters (MidenEcosystemPage catalog st) = true ↔
   ∃ chip, chip ∈ chips (MidenEcosystemPage catalog st) ∧
           chipSelected chip = true).
Proof.
  intros [Hwf Hsub]%reachable_invariant.
  assert (chipTag <$>
            JSArray.filter chipSelected (chips (MidenEcosystemPage catalog st))
            ≡ₚ selectedTags st) as Hperm.
  { unfold MidenEcosystemPage. cbn [chips]. rewrite selected_chips_tags.
    apply NoDup_Permutation; [|done|].
    - apply (sublist_NoDup _ (getAllUniqueTags catalog));
        [apply NoDup_getAllUniqueTags | apply JSArray_filter_sublist].
    - intros x. rewrite elem_of_JSArray_filter, has_true. split; [tauto|].
      intros Hx. split; [by apply Hsub | done]. }
  split_and!; [done | |].
  - unfold JSSet.size. rewrite <- Hperm. by rewrite length_fmap.
  - unfold MidenEcosystemPage at 1. cbn [clearFilters].
    rewrite bool_decide_eq_true. unfold JSSet.size. split.
    + intros Hlen. destruct (selectedTags st) as [|tag S];
        [simpl in Hlen; lia|].
      assert (tag ∈ tag :: S) as Htag by left.
      rewrite <- Hperm in Htag.
      apply list_elem_of_fmap in Htag as (chip & _ & Hchip).
      apply elem_of_JSArray_filter in Hchip. by exists chip.
    + intros (chip & Hchip & Hsel).
      assert (chipTag chip ∈ selectedTags st) as Hin.
      { rewrite <- Hperm. apply list_elem_of_fmap. exists chip.
        split; [done|]. by apply elem_of_JSArray_filter. }
      destruct (selectedTags st); [by apply elem_of_nil in Hin | simpl; lia].
Qed.


(** X15. An empty result is never a dead end for a catalog that has
    projects: when "No projects found" is rendered, the "Clear Search &
    Filters" button is rendered with it, and clicking it brings back the
    grid with a card for every project of the catalog. *)
Theorem empty_results_offer_reset catalog st (clearSearchAndFilters : bool) :
  catalog ≠ [] →
  results (MidenEcosystemPage catalog st) = NoProjectsFound clearSearchAndFilters →
  clearSearchAndFilters = true ∧
  offers (MidenEcosystemPage catalog st) ClearSearchAndFiltersClicked = true ∧
  results (MidenEcosystemPage catalog (step st ClearSearchAndFiltersClicked)) =
    Grid (renderCard <$> catalog).
Proof.
  intros Hcat Hres.
  destruct (results_cases catalog st) as [[_ Hgrid] | [Hnil Hnone]];
    [congruence|].
  assert (clearSearchAndFilters = true) as ->.
  { rewrite Hnone in Hres. injection Hres as <-.
    apply not_false_iff_true. intros Hflag.
    apply orb_false_iff in Hflag as [Hterm Hsize].
    apply negb_false_iff, bool_decide_eq_true in Hterm.
    apply bool_decide_eq_false in Hsize.
    apply Hcat. rewrite <- Hnil. unfold visibleSet. rewrite Hterm.
    destruct (selectedTags st) as [|tag S].
    - symmetry. apply filteredProjects_initial.
    - exfalso. apply Hsize. unfold JSSet.size. simpl. lia. }
  split_and!; [done | |].
  - unfold offers. by rewrite Hres.
  - destruct (results_cases catalog (step st ClearSearchAndFiltersClicked))
      as [[_ ->] | [Hnil' _]].
    + unfold visibleSet. simpl. by rewrite filteredProjects_initial.
    + exfalso. apply Hcat. rewrite <- Hnil'. unfold visibleSet. simpl.
      symmetry. apply filteredProjects_initial.
Qed.

End ViewProperties.

Lemma reachable_selection_in_vocabulary_witness :
  JSSet.wf (selectedTags (step initialState (TagClicked "Naming"))) ∧
  selectedTags (step initialState (TagClicked "Naming")) ⊆
    getAllUniqueTags allProjects ∧
  JSSet.size (selectedTags (step initialState (TagClicked "Naming"))) ≤
    length (getAllUniqueTags allProjects) ∧
  ∀ tag, tag ∈ selectedTags (step initialState (TagClicked "Naming")) →
         ∃ project, project ∈ allProjects ∧ CarriesTag project tag.
Proof.
  apply (reachable_selection_in_vocabulary allProjects
           (step initialState (TagClicked "Naming"))).
  apply reachable_step; [apply reachable_initial | reflexivity].
Defined.

Lemma selected_chips_are_selection_witness :
  chipTag <$>
    JSArray.filter chipSelected
      (chips (MidenEcosystemPage allProjects
                (run initialState [TagClicked "Utility"; TagClicked "Naming"])))
    ≡ₚ selectedTags (run initialState [TagClicked "Utility"; TagClicked "Naming"]) ∧
  length
    (JSArray.filter chipSelected
       (chips (MidenEcosystemPage allProjects
                 (run initialState [TagClicked "Utility"; TagClicked "Naming"])))) =
    JSSet.size
      (selectedTags (run initialState [TagClicked "Utility"; TagClicked "Naming"])) ∧
  (clearFilters
     (MidenEcosystemPage allProjects
        (run initialState [TagClicked "Utility"; TagClicked "Naming"])) = true ↔
   ∃ chip,
     chip ∈ chips (MidenEcosystemPage allProjects
                     (run initialState [TagClicked "Utility"; TagClicked "Naming"])) ∧
     chipSelected chip = true).
Proof.
  apply (selected_chips_are_selection allProjects
           (run initialState [TagClicked "Utility"; TagClicked "Naming"])).
  apply (reachable_step allProjects (step initialState (TagClicked "Utility")));
    [|reflexivity].
  apply reachable_step; [apply reachable_initial | reflexivity].
Defined.


Lemma empty_results_offer_reset_witness :
  true = true ∧
  offers (MidenEcosystemPage allProjects
            {| searchTerm := "zzz"; selectedTags := JSSet.empty |})
    ClearSearchAndFiltersClicked = true ∧
  results
    (MidenEcosystemPage allProjects
       (step {| searchTerm := "zzz"; selectedTags := JSSet.empty |}
             ClearSearchAndFiltersClicked)) =
    Grid (renderCard <$> allProjects).
Proof.
  apply (empty_results_offer_reset allProjects
           {| searchTerm := "zzz"; selectedTags := JSSet.empty |} true).
  - discriminate.
  - reflexivity.
Defined.

Section Sessions.
Context {fold : CaseFold}.
Implicit Types (catalog : list Project) (st : FilterState).

(** X16. No tag button is a dead end on the fresh page: a first click on
    any rendered button shows the grid, with exactly the projects that carry
    the clicked tag up to case. *)
Theorem first_click_shows_projects catalog (tag : string) :
  offers (MidenEcosystemPage catalog initialState) (TagClicked tag) = true →
  visibleSet catalog (step initialState (TagClicked tag)) ≠ [] ∧
  (∀ project,
     project ∈ visibleSet catalog (step initialState (TagClicked tag)) ↔
     project ∈ catalog ∧ CarriesTag project tag) ∧
  results (MidenEcosystemPage catalog (step initialState (TagClicked tag))) =
    Grid (renderCard <$> visibleSet catalog (step initialState (TagClicked tag))).
Proof.
  intros Hoffer. unfold offers in Hoffer. apply bool_decide_eq_true in Hoffer.
  rewrite chips_tags in Hoffer.
  apply elem_of_getAllUniqueTags in Hoffer as (carrier & Hcarrier & Htag).
  assert (∀ project,
            project ∈ visibleSet catalog (step initialState (TagClicked tag)) ↔
            project ∈ catalog ∧ CarriesTag project tag) as Hmem.
  { intros project. unfold visibleSet. simpl.
    rewrite elem_of_filteredProjects, TagPredicate_carries.
    change (handleTagClick_updater tag JSSet.empty) with [tag].
    split.
    - intros (Hin & _ & Hall). split; [done|]. apply Hall. left.
    - intros [Hin Hcarries]. split_and!; [done | by left |].
      by intros t ->%list_elem_of_singleton. }
  assert (visibleSet catalog (step initialState (TagClicked tag)) ≠ []) as Hne.
  { intros Hnil. assert (carrier ∈ @nil Project) as Hin; [|by apply elem_of_nil in Hin].
    rewrite <- Hnil. apply Hmem. split; [done|]. by exists tag. }
  split_and!; [done | done |].
  by destruct (results_cases catalog (step initialState (TagClicked tag)))
    as [[_ ->] | [? _]].
Qed.

Lemma reachable_selection catalog (S : JSSet.t) :
  JSSet.wf S → S ⊆ getAllUniqueTags catalog →
  reachable catalog {| searchTerm := ""; selectedTags := S |}.
Proof.
  induction S as [|t S IH] using rev_ind; intros Hwf Hsub.
  - apply reachable_initial.
  - apply NoDup_app in Hwf as (Hwf & Hdisj & _).
    assert (t ∉ S) as Ht.
    { intros Hin. apply (Hdisj t Hin). left. }
    assert (step {| searchTerm := ""; selectedTags := S |} (TagClicked t) =
            {| searchTerm := ""; selectedTags := S ++ [t] |}) as <-.
    { unfold step. simpl. f_equal. rewrite updater_wf by done.
      by rewrite (proj2 (has_false S t) Ht). }
    apply reachable_step.
    + apply IH; [done|]. intros x Hx. apply Hsub, elem_of_app. by left.
    + unfold offers. apply bool_decide_eq_true. rewrite chips_tags.
      apply Hsub, elem_of_app. right. left.
Qed.

(** X17. The states a visitor can reach are exactly those whose selection is
    a set object of tags that have a button; the search term can be any
    string. *)
Theorem reachable_iff catalog st :
  reachable catalog st ↔
  JSSet.wf (selectedTags st) ∧ selectedTags st ⊆ getAllUniqueTags catalog.
Proof.
  split; [apply reachable_invariant|].
  intros [Hwf Hsub]. destruct st as [term S]. simpl in *.
  change {| searchTerm := term; selectedTags := S |}
    with (step {| searchTerm := ""; selectedTags := S |} (SearchChanged term)).
  apply reachable_step; [by apply reachable_selection | done].
Qed.

(** X18. The fresh page can always be got back with what the page offers:
    from every state, at most two events that the page offers one after the
    other ("Clear Filters" when a tag is selected, then emptying the search
    box) lead to the initial state, where the whole catalog is visible. *)
Theorem reset_always_offered catalog st :
  ∃ es : list Event,
    length es ≤ 2 ∧
    offeredRun catalog st es = true ∧
    run st es = initialState ∧
    visibleSet catalog (run st es) = catalog.
Proof.
  destruct st as [term S]. destruct S as [|t S].
  - exists [SearchChanged ""]. split_and!; [simpl; lia | done | done |].
    apply filteredProjects_initial.
  - exists [ClearFiltersClicked; SearchChanged ""].
    split_and!; [simpl; lia | done | done |].
    apply filteredProjects_initial.
Qed.

End Sessions.

Lemma first_click_shows_projects_witness :
  visibleSet allProjects (step initialState (TagClicked "Utility")) ≠ [] ∧
  (∀ project,
     project ∈ visibleSet allProjects (step initialState (TagClicked "Utility")) ↔
     project ∈ allProjects ∧ CarriesTag project "Utility") ∧
  results (MidenEcosystemPage allProjects (step initialState (TagClicked "Utility"))) =
    Grid (renderCard <$>
            visibleSet allProjects (step initialState (TagClicked "Utility"))).
Proof.
  apply (first_click_shows_projects allProjects "Utility"). reflexivity.
Defined.
